(** * The fetch/cache engine of [content_fetcher.py]

    A shallow embedding of class [ContentFetcher]: the request key
    [json.dumps((url, sorted(params.items())))], the two cache tables, the
    clock, the network and the cache file are explicit, and the methods are
    functions in a state-and-exception monad.

    Strings are [string]s whose characters stand for the code points
    U+0000..U+00FF.  Timestamps ([time.time()]) are readings of an arbitrary
    clock, taken as integers. *)

From Stdlib Require Import ZArith Ascii String DecimalString DecimalZ.
From stdpp Require Import gmap strings list sorting.

Local Open Scope Z_scope.

(** ** Python values *)

(** What [response.json()] can decode, and what an entry's ['data'] holds. *)
#[warnings="-register-all"]
Inductive pyval : Type :=
  | PyNone
  | PyBool (b : bool)
  | PyInt (n : Z)
  | PyStr (s : string)
  | PyList (l : list pyval)
  | PyDict (d : list (string * pyval)).

(** Values of query parameters: the callers pass strings
    ([{"ajax": "true", "year": movie_year}]) and integers
    ([{"page_num": page_number}]). *)
Inductive ParamValue : Type :=
  | VStr (s : string)
  | VInt (n : Z).

(** A [dict] of parameters in insertion order; its keys are pairwise
    distinct ([dict_wf]). *)
Definition Params : Type := list (string * ParamValue).

Definition dict_wf (params : Params) : Prop := NoDup params.*1.

#[global] Instance ParamValue_eq_dec : EqDecision ParamValue.
Proof. solve_decision. Defined.

(** ** [json.dumps] on the request key *)

Module Json.

Definition quote : ascii := "034"%char.
Definition backslash : ascii := "092"%char.

Definition hex_digit (n : N) : ascii :=
  match n with
  | 0 => "0" | 1 => "1" | 2 => "2" | 3 => "3" | 4 => "4" | 5 => "5"
  | 6 => "6" | 7 => "7" | 8 => "8" | 9 => "9" | 10 => "a" | 11 => "b"
  | 12 => "c" | 13 => "d" | 14 => "e" | _ => "f"
  end%N%char.

(** [ESCAPE_DCT] and the [\uXXXX] fallback of [py_encode_basestring_ascii]
    ([ensure_ascii=True], the default): everything outside [' '..'~'], the
    quote and the backslash are escaped. *)
Definition escape_char (c : ascii) : string :=
  let n := N_of_ascii c in
  if Ascii.eqb c quote then String backslash (String quote EmptyString)
  else if Ascii.eqb c backslash then String backslash (String backslash EmptyString)
  else
    match n with
    | 8 => String backslash "b"
    | 9 => String backslash "t"
    | 10 => String backslash "n"
    | 12 => String backslash "f"
    | 13 => String backslash "r"
    | _ =>
        if (32 <=? n)%N && (n <=? 126)%N then String c EmptyString
        else String backslash
               (String "u" (String "0" (String "0"
                 (String (hex_digit (n / 16)) (String (hex_digit (n mod 16)) EmptyString)))))
    end%N.

Fixpoint escape (s : string) : string :=
  match s with
  | EmptyString => EmptyString
  | String c s' => escape_char c +:+ escape s'
  end.

(** A [str]. *)
Definition dumps_str (s : string) : string :=
  String quote (escape s +:+ String quote EmptyString).

(** An [int]: its decimal representation. *)
Definition dumps_int (n : Z) : string := NilZero.string_of_int (Z.to_int n).

Definition dumps_value (v : ParamValue) : string :=
  match v with
  | VStr s => dumps_str s
  | VInt n => dumps_int n
  end.

(** A [(name, value)] tuple is written as a two-element array. *)
Definition dumps_item (kv : string * ParamValue) : string :=
  "[" +:+ dumps_str kv.1 +:+ ", " +:+ dumps_value kv.2 +:+ "]".

(** The elements of an array, separated by [", "]. *)
Fixpoint join_items (l : list (string * ParamValue)) : string :=
  match l with
  | [] => EmptyString
  | [kv] => dumps_item kv
  | kv :: l' => dumps_item kv +:+ ", " +:+ join_items l'
  end.

Definition dumps_items (l : list (string * ParamValue)) : string :=
  "[" +:+ join_items l +:+ "]".

(** [json.dumps((url, items))]. *)
Definition dumps (url : string) (items : list (string * ParamValue)) : string :=
  "[" +:+ dumps_str url +:+ ", " +:+ dumps_items items +:+ "]".

(** *** Reading the text back (used to show that nothing is lost) *)

(** The value of a hexadecimal digit. *)
Definition unhex (c : ascii) : N :=
  let n := N_of_ascii c in
  (if n <? 58 then n - 48 else n - 87)%N.

(** Reads one escaped character off the front of a text. *)
Definition unescape_head (s : string) : option (ascii * string) :=
  match s with
  | EmptyString => None
  | String c rest =>
      if Ascii.eqb c backslash then
        match rest with
        | String "u" (String _ (String _ (String h (String l rest')))) =>
            Some (ascii_of_N (unhex h * 16 + unhex l), rest')
        | String "b" rest' => Some ("008"%char, rest')
        | String "t" rest' => Some ("009"%char, rest')
        | String "n" rest' => Some ("010"%char, rest')
        | String "f" rest' => Some ("012"%char, rest')
        | String "r" rest' => Some ("013"%char, rest')
        | String c' rest' => Some (c', rest')
        | EmptyString => None
        end
      else Some (c, rest)
  end.

(** All characters of a text satisfy [P]. *)
Fixpoint all_chars (P : ascii -> bool) (s : string) : bool :=
  match s with
  | EmptyString => true
  | String c s' => P c && all_chars P s'
  end.

(** The characters of the decimal representation of an [int]. *)
Definition decimal_char (c : ascii) : bool :=
  let n := N_of_ascii c in
  ((48 <=? n) && (n <=? 57) || (n =? 45))%N.

End Json.

(** ** The request key *)

(** The order of [sorted] on the items of a dict: tuples are compared on
    their first component, the name, by code points; two items of a dict
    never have the same name, so the values are not compared. *)
Definition item_le (a b : string * ParamValue) : Prop := String.le a.1 b.1.

#[global] Instance item_le_dec : RelDecision item_le.
Proof. intros a b. unfold item_le. apply _. Defined.

(** [sorted(params.items())] *)
Definition sorted (params : Params) : list (string * ParamValue) :=
  merge_sort item_le params.

(** [cache_key = json.dumps((url, sorted(params.items())))] *)
Definition cache_key (url : string) (params : Params) : string :=
  Json.dumps url (sorted params).

(** ** Content kinds *)

(** [str.lower] on the code points below 256: [A-Z] and the upper-case
    letters of U+00C0..U+00DE (all but the multiplication sign) move up
    by 32. *)
Definition lower_char (c : ascii) : ascii :=
  let n := N_of_ascii c in
  if ((65 <=? n) && (n <=? 90) || (192 <=? n) && (n <=? 222) && negb (n =? 215))%N
  then ascii_of_N (n + 32)
  else c.

Fixpoint lower (s : string) : string :=
  match s with
  | EmptyString => EmptyString
  | String c s' => String (lower_char c) (lower s')
  end.

(** [needle in hay] on strings. *)
Fixpoint contains (needle hay : string) : bool :=
  String.prefix needle hay ||
  match hay with
  | EmptyString => false
  | String _ hay' => contains needle hay'
  end.

(** ** Cache entries and the state of the world *)

Definition Time : Type := Z.

(** An entry of [successful_cache]. *)
Record SuccessEntry : Type := mkSuccess {
  s_url : string;
  s_params : Params;
  s_first_request : Time;
  s_last_request : Time;
  s_data : pyval
}.

(** An entry of [bad_request_cache]. *)
Record FailureEntry : Type := mkFailure {
  f_url : string;
  f_params : Params;
  f_last_request : Time;
  f_error : string;
  f_first_request : Time
}.

(** The exceptions the engine tells apart: [aiohttp.ClientError] (with the
    text [str(e)] gives), [asyncio.TimeoutError], [ValueError], and any other
    [Exception]. *)
Inductive exn : Type :=
  | ClientError (msg : string)
  | TimeoutError
  | ValueError (msg : string)
  | OtherError (msg : string).

(** [str(e)] *)
Definition exn_str (e : exn) : string :=
  match e with
  | ClientError msg | ValueError msg | OtherError msg => msg
  | TimeoutError => EmptyString
  end.

(** What the engine reads from an [aiohttp] response: the status (with the
    text of the [ClientResponseError] that [raise_for_status] raises for
    it), the [Content-Type] header if any, and what awaiting [text()] and
    [json()] gives. *)
Record Response : Type := mkResponse {
  status : Z;
  status_error : string;
  content_type_header : option string;
  text : exn + string;
  json : exn + pyval
}.

(** The cache file: absent, not parseable as JSON, or the two tables that
    [json.dump] wrote. *)
Inductive FileContents : Type :=
  | NoFile
  | Garbage
  | Saved (successes : gmap string SuccessEntry) (failures : gmap string FailureEntry).

Inductive LogRecord : Type :=
  | LogError (msg : string)
  | LogWarning (msg : string).

(** The engine's two tables together with its environment: the cache file
    and whether writing it fails ([disk_error] is the text of the exception),
    the logger's output, the clock ([clock n] is the [n]-th reading, [ticks]
    readings were taken), and the network ([network n url params] is the
    outcome of the [n]-th GET, [sent] lists the GETs issued). *)
Record State : Type := mkState {
  successful_cache : gmap string SuccessEntry;
  bad_request_cache : gmap string FailureEntry;
  cache_file : FileContents;
  disk_error : option string;
  log : list LogRecord;
  clock : nat -> Time;
  ticks : nat;
  network : nat -> string -> Params -> exn + Response;
  sent : list (string * Params)
}.

Definition set_successful_cache (f : gmap string SuccessEntry -> gmap string SuccessEntry)
    (s : State) : State :=
  mkState (f (successful_cache s)) (bad_request_cache s) (cache_file s) (disk_error s)
          (log s) (clock s) (ticks s) (network s) (sent s).

Definition set_bad_request_cache (f : gmap string FailureEntry -> gmap string FailureEntry)
    (s : State) : State :=
  mkState (successful_cache s) (f (bad_request_cache s)) (cache_file s) (disk_error s)
          (log s) (clock s) (ticks s) (network s) (sent s).

Definition set_cache_file (c : FileContents) (s : State) : State :=
  mkState (successful_cache s) (bad_request_cache s) c (disk_error s)
          (log s) (clock s) (ticks s) (network s) (sent s).

Definition add_log (r : LogRecord) (s : State) : State :=
  mkState (successful_cache s) (bad_request_cache s) (cache_file s) (disk_error s)
          (log s ++ [r]) (clock s) (ticks s) (network s) (sent s).

Definition tick (s : State) : State :=
  mkState (successful_cache s) (bad_request_cache s) (cache_file s) (disk_error s)
          (log s) (clock s) (S (ticks s)) (network s) (sent s).

Definition add_sent (url : string) (params : Params) (s : State) : State :=
  mkState (successful_cache s) (bad_request_cache s) (cache_file s) (disk_error s)
          (log s) (clock s) (ticks s) (network s) (sent s ++ [(url, params)]).

(** ** The monad of the methods: state and exceptions *)

Inductive Result (A : Type) : Type :=
  | Ret (a : A)
  | Raise (e : exn).
Arguments Ret {A} a.
Arguments Raise {A} e.

Definition M (A : Type) : Type := State -> Result A * State.

#[global] Instance M_ret : MRet M := fun A a s => (Ret a, s).

#[global] Instance M_bind : MBind M := fun A B f m s =>
  match m s with
  | (Ret a, s') => f a s'
  | (Raise e, s') => (Raise e, s')
  end.

Definition get_state : M State := fun s => (Ret s, s).

Definition modify (f : State -> State) : M unit := fun s => (Ret tt, f s).

Definition raise {A : Type} (e : exn) : M A := fun s => (Raise e, s).

(** [try: body except Exception as e: handler e] *)
Definition try_except {A : Type} (body : M A) (handler : exn -> M A) : M A := fun s =>
  match body s with
  | (Ret a, s') => (Ret a, s')
  | (Raise e, s') => handler e s'
  end.

(** [time.time()] *)
Definition time_time : M Time := fun s => (Ret (clock s (ticks s)), tick s).

Definition logger_error (msg : string) : M unit := modify (add_log (LogError msg)).

Definition logger_warning (msg : string) : M unit := modify (add_log (LogWarning msg)).

(** [session.get(url, params=params, timeout=10)]: the request is issued, and
    either fails or gives a response. *)
Definition session_get (url : string) (params : Params) : M Response := fun s =>
  let s' := add_sent url params s in
  match network s (length (sent s)) url params with
  | inl e => (Raise e, s')
  | inr response => (Ret response, s')
  end.

(** [response.raise_for_status()]: a status of 400 or more raises a
    [ClientResponseError], which is a [ClientError]. *)
Definition raise_for_status (response : Response) : M unit :=
  if 400 <=? status response then raise (ClientError (status_error response)) else mret tt.

Definition await {A : Type} (r : exn + A) : M A :=
  match r with
  | inl e => raise e
  | inr a => mret a
  end.

(** ** The methods of [ContentFetcher] *)

(** What [fetch_content] gives back: a [BeautifulSoup] tree, written as the
    markup it was parsed from by [bs(markup, 'html.parser')], or a decoded
    value. *)
Inductive Content : Type :=
  | Soup (markup : string)
  | Value (v : pyval).

(** The [return] statement a call ended with: the one of the success-cache
    read, the one after a stored response, or none (the end of the function
    body was reached, and Python returns [None]). *)
Inductive Answer : Type :=
  | CacheHit (c : Content)
  | Fresh (c : Content)
  | Nothing.

(** The value the caller receives. *)
Definition returned (a : Answer) : Content :=
  match a with
  | CacheHit c | Fresh c => c
  | Nothing => Value PyNone
  end.

(** [bs(entry['data'], 'html.parser') if isinstance(entry['data'], str)
     else entry['data']] *)
Definition read_data (data : pyval) : Content :=
  match data with
  | PyStr markup => Soup markup
  | _ => Value data
  end.

Definition touch_success (now : Time) (entry : SuccessEntry) : SuccessEntry :=
  mkSuccess (s_url entry) (s_params entry) (s_first_request entry) now (s_data entry).

Definition touch_failure (now : Time) (entry : FailureEntry) : FailureEntry :=
  mkFailure (f_url entry) (f_params entry) now (f_error entry) (f_first_request entry).

Definition save_cache_to_file : M unit := fun s =>
  match disk_error s with
  | None => (Ret tt, set_cache_file (Saved (successful_cache s) (bad_request_cache s)) s)
  | Some e =>
      (Ret tt, add_log (LogError ("An error occurred while saving cache to file: " +:+ e)) s)
  end.

Definition load_cache_from_file : M unit := fun s =>
  match cache_file s with
  | Saved successes failures =>
      (Ret tt, set_bad_request_cache (fun _ => failures)
                 (set_successful_cache (fun _ => successes) s))
  | NoFile =>
      (Ret tt, add_log (LogWarning "Cache file not found. Starting with empty cache.") s)
  | Garbage =>
      (Ret tt, add_log (LogWarning "Error decoding cache file. Starting with empty cache.") s)
  end.

(** [__init__]: both tables start empty, then the file is loaded. *)
Definition __init__ : M unit :=
  _ ← modify (set_successful_cache (fun _ => ∅));
  _ ← modify (set_bad_request_cache (fun _ => ∅));
  load_cache_from_file.

Definition _handle_error_and_cache (cache_key url : string) (params : Params)
    (error_message : string) (ignore_bad_request : bool) : M unit :=
  if negb ignore_bad_request then
    last ← time_time;
    s ← get_state;
    first ← match bad_request_cache s !! cache_key with
            | Some old => mret (f_first_request old)
            | None => time_time
            end;
    let entry := mkFailure url params last error_message first in
    _ ← modify (set_bad_request_cache (insert cache_key entry));
    _ ← save_cache_to_file;
    raise (ValueError error_message)
  else
    logger_error error_message.

(** The body of the [try] statement of [_fetch_with_session]. *)
Definition try_body (cache_key url : string) (params : Params)
    (ignore_bad_request : bool) : M Answer :=
  s ← get_state;
  _ ← match (if negb ignore_bad_request then bad_request_cache s !! cache_key else None) with
      | Some entry =>
          now ← time_time;
          _ ← modify (set_bad_request_cache (insert cache_key (touch_failure now entry)));
          _ ← logger_error ("Ignoring request due to previous failure: " +:+ cache_key);
          raise (ValueError ("Request was previously marked as bad: " +:+ cache_key))
      | None => mret tt
      end;
  response ← session_get url params;
  _ ← raise_for_status response;
  let content_type := default EmptyString (content_type_header response) in
  if contains "text/html" (lower content_type) then
    html_content ← await (text response);
    match html_content with
    | String _ _ =>
        first ← time_time;
        last ← time_time;
        let entry := mkSuccess url params first last (PyStr html_content) in
        _ ← modify (set_successful_cache (insert cache_key entry));
        s' ← get_state;
        _ ← match bad_request_cache s' !! cache_key with
            | Some _ => modify (set_bad_request_cache (delete cache_key))
            | None => mret tt
            end;
        _ ← save_cache_to_file;
        mret (Fresh (Soup html_content))
    | EmptyString =>
        _ ← _handle_error_and_cache cache_key url params
              ("Empty HTML content received from " +:+ url) ignore_bad_request;
        mret Nothing
    end
  else if contains "application/json" (lower content_type) then
    json_content ← await (json response);
    first ← time_time;
    last ← time_time;
    let entry := mkSuccess url params first last json_content in
    _ ← modify (set_successful_cache (insert cache_key entry));
    s' ← get_state;
    _ ← match bad_request_cache s' !! cache_key with
        | Some _ => modify (set_bad_request_cache (delete cache_key))
        | None => mret tt
        end;
    _ ← save_cache_to_file;
    mret (Fresh (Value json_content))
  else
    _ ← _handle_error_and_cache cache_key url params
          ("Unexpected content type '" +:+ content_type +:+ "' received from " +:+ url)
          ignore_bad_request;
    mret Nothing.

(** The [except] clauses, tried in order: [aiohttp.ClientError],
    [asyncio.TimeoutError], [Exception]. *)
Definition error_message_of (url : string) (e : exn) : string :=
  match e with
  | ClientError _ =>
      "An error occurred during HTTP request: " +:+ exn_str e +:+ " received from " +:+ url
  | TimeoutError => "Request timed out for URL: " +:+ url
  | ValueError _ | OtherError _ =>
      "An unexpected error occurred: " +:+ exn_str e +:+ " received from " +:+ url
  end.

Definition except_clauses (cache_key url : string) (params : Params)
    (ignore_bad_request : bool) (e : exn) : M Answer :=
  _ ← _handle_error_and_cache cache_key url params (error_message_of url e) ignore_bad_request;
  mret Nothing.

Definition _fetch_with_session (url : string) (params : Params)
    (force_refresh ignore_bad_request : bool) : M Answer :=
  let cache_key := cache_key url params in
  s ← get_state;
  match (if negb force_refresh then successful_cache s !! cache_key else None) with
  | Some entry =>
      now ← time_time;
      _ ← modify (set_successful_cache (insert cache_key (touch_success now entry)));
      mret (CacheHit (read_data (s_data entry)))
  | None =>
      try_except (try_body cache_key url params ignore_bad_request)
                 (except_clauses cache_key url params ignore_bad_request)
  end.

(** A caller's session, or [None]: then one is opened for the call. *)
Inductive ClientSession : Type := TheSession.

(** The two tables are dicts from [__init__] on, never [None]: the reload
    guarded by [is None] does not run. *)
Definition fetch_content (url : string) (params : Params) (session : option ClientSession)
    (force_refresh ignore_bad_request : bool) : M Answer :=
  match session with
  | None => _fetch_with_session url params force_refresh ignore_bad_request
  | Some _ => _fetch_with_session url params force_refresh ignore_bad_request
  end.

(** ** Vocabulary of the properties *)

(** No key is in both tables. *)
Definition tables_disjoint (s : State) : Prop :=
  forall key, successful_cache s !! key = None \/ bad_request_cache s !! key = None.

(** The call gets past the success-cache read: a forced refresh, or no
    success entry under the key. *)
Definition misses (key : string) (force_refresh : bool) (s : State) : Prop :=
  force_refresh = true \/ successful_cache s !! key = None.

(** The call gets past the failure-cache read as well, and so issues the
    GET. *)
Definition reaches_network (key : string) (force_refresh ignore_bad_request : bool)
    (s : State) : Prop :=
  misses key force_refresh s /\
  (ignore_bad_request = true \/ bad_request_cache s !! key = None).

(** The outcome of the GET that a call issued in state [s] receives. *)
Definition next_response (url : string) (params : Params) (s : State) : exn + Response :=
  network s (length (sent s)) url params.

(** What becomes of the outcome of a GET inside the [try] statement: the
    response is stored ([data] in the entry, [content] to the caller), an
    exception is raised (by the request, the status check or the reading of
    the body), or the content is rejected with a message. *)
Inductive Verdict : Type :=
  | Stored (data : pyval) (content : Content)
  | Raised (e : exn)
  | Rejected (msg : string).

Definition verdict (url : string) (out : exn + Response) : Verdict :=
  match out with
  | inl e => Raised e
  | inr response =>
      if 400 <=? status response then Raised (ClientError (status_error response))
      else
        let content_type := default EmptyString (content_type_header response) in
        if contains "text/html" (lower content_type) then
          match text response with
          | inl e => Raised e
          | inr EmptyString => Rejected ("Empty HTML content received from " +:+ url)
          | inr html_content => Stored (PyStr html_content) (Soup html_content)
          end
        else if contains "application/json" (lower content_type) then
          match json response with
          | inl e => Raised e
          | inr json_content => Stored json_content (Value json_content)
          end
        else
          Rejected ("Unexpected content type '" +:+ content_type
                      +:+ "' received from " +:+ url)
  end.

(** The message of the request fault, if the request fails. *)
Definition fault_of (url : string) (out : exn + Response) : option string :=
  match verdict url out with
  | Stored _ _ => None
  | Raised e => Some (error_message_of url e)
  | Rejected msg => Some msg
  end.

(** The state after [save_cache_to_file]. *)
Definition persist (s : State) : State :=
  match disk_error s with
  | None => set_cache_file (Saved (successful_cache s) (bad_request_cache s)) s
  | Some e => add_log (LogError ("An error occurred while saving cache to file: " +:+ e)) s
  end.

(** The state after [_handle_error_and_cache] recorded a failure. *)
Definition record_failure (key url : string) (params : Params) (msg : string)
    (s : State) : State :=
  let last := clock s (ticks s) in
  match bad_request_cache s !! key with
  | Some old =>
      persist (set_bad_request_cache
                 (insert key (mkFailure url params last msg (f_first_request old))) (tick s))
  | None =>
      persist (set_bad_request_cache
                 (insert key (mkFailure url params last msg (clock s (S (ticks s)))))
                 (tick (tick s)))
  end.

(** The state after a response was stored. *)
Definition store_success (key url : string) (params : Params) (data : pyval)
    (s : State) : State :=
  let entry := mkSuccess url params (clock s (ticks s)) (clock s (S (ticks s))) data in
  persist (set_bad_request_cache (delete key)
             (set_successful_cache (insert key entry) (tick (tick s)))).

(** The outcome of a request fault with message [msg]. *)
Definition fault (key url : string) (params : Params) (ignore_bad_request : bool)
    (msg : string) (s : State) : Result Answer * State :=
  if ignore_bad_request then (Ret Nothing, add_log (LogError msg) s)
  else (Raise (ValueError msg), record_failure key url params msg s).

(** A call of [fetch_content], path by path. *)
Definition outcome (url : string) (params : Params) (force_refresh ignore_bad_request : bool)
    (s : State) : Result Answer * State :=
  let key := cache_key url params in
  match (if negb force_refresh then successful_cache s !! key else None) with
  | Some entry =>
      (Ret (CacheHit (read_data (s_data entry))),
       set_successful_cache (insert key (touch_success (clock s (ticks s)) entry)) (tick s))
  | None =>
      match (if negb ignore_bad_request then bad_request_cache s !! key else None) with
      | Some entry =>
          fault key url params false
            (error_message_of url
               (ValueError ("Request was previously marked as bad: " +:+ key)))
            (add_log (LogError ("Ignoring request due to previous failure: " +:+ key))
               (set_bad_request_cache
                  (insert key (touch_failure (clock s (ticks s)) entry)) (tick s)))
      | None =>
          let s1 := add_sent url params s in
          match verdict url (next_response url params s) with
          | Stored data content => (Ret (Fresh content), store_success key url params data s1)
          | Raised e => fault key url params ignore_bad_request (error_message_of url e) s1
          | Rejected msg =>
              if ignore_bad_request then (Ret Nothing, add_log (LogError msg) s1)
              else fault key url params false (error_message_of url (ValueError msg))
                     (record_failure key url params msg s1)
          end
      end
  end.

(** A call of [fetch_content] with its arguments, and the state a series of
    calls made one after the other leaves. *)
Record Call : Type := mkCall {
  call_url : string;
  call_params : Params;
  call_session : option ClientSession;
  call_force_refresh : bool;
  call_ignore_bad_request : bool
}.

Definition run_call (c : Call) (s : State) : State :=
  (fetch_content (call_url c) (call_params c) (call_session c)
                 (call_force_refresh c) (call_ignore_bad_request c) s).2.

Definition run_calls (calls : list Call) (s : State) : State :=
  foldl (fun s c => run_call c s) s calls.

(** ** Example worlds *)

(** A clock that advances at every reading, and one that stands still. *)
Definition ticking_clock (n : nat) : Time := 1700000000 + Z.of_nat n.
Definition frozen_clock (_ : nat) : Time := 1700000000.

(** A page, a JSON document and a server error, as responses. *)
Definition html_response (body : string) : Response :=
  mkResponse 200 EmptyString (Some "text/html; charset=utf-8") (inr body)
             (inl (ClientError "Attempt to decode JSON with unexpected mimetype")).

Definition json_response (raw : string) (decoded : pyval) : Response :=
  mkResponse 200 EmptyString (Some "application/json") (inr raw) (inr decoded).

Definition plain_response (body : string) : Response :=
  mkResponse 200 EmptyString (Some "text/plain") (inr body)
             (inl (ClientError "Attempt to decode JSON with unexpected mimetype")).

Definition server_error : Response :=
  mkResponse 500 "500, message='Internal Server Error'" (Some "text/html")
             (inr EmptyString) (inl (ClientError "Attempt to decode JSON with unexpected mimetype")).

(** A network that answers every GET with the same outcome, and one that
    answers the first GET with one response and the later ones with another. *)
Definition always (out : exn + Response) : nat -> string -> Params -> exn + Response :=
  fun _ _ _ => out.

Definition first_then (r1 r2 : Response) : nat -> string -> Params -> exn + Response :=
  fun n _ _ => match n with O => inr r1 | S _ => inr r2 end.

(** An engine just constructed by [__init__], with no cache file yet. *)
Definition new_engine (clock : nat -> Time)
    (network : nat -> string -> Params -> exn + Response) : State :=
  (__init__ (mkState ∅ ∅ NoFile None [] clock 0 network [])).2.

Definition url_x : string := "https://example.test/x".
Definition url_y : string := "https://example.test/y".

(** A state with the key of [url_x] in both tables, as a hand-edited cache
    file gives after loading. *)
Definition both_tables : State :=
  let key := cache_key url_x [] in
  mkState {[ key := mkSuccess url_x [] 100 100 (PyStr "<html>ok</html>") ]}
          {[ key := mkFailure url_x [] 50 "Request timed out for URL: https://example.test/x" 50 ]}
          NoFile None [] ticking_clock 0 (always (inr server_error)) [].

(** A state with one failure entry, for [url_y] and [{"a": "1"}]. *)
Definition failed_before : State :=
  let key := cache_key url_y [("a", VStr "1")] in
  mkState ∅
          {[ key := mkFailure url_y [("a", VStr "1")] 50 "Request timed out for URL: https://example.test/y" 40 ]}
          NoFile None [] ticking_clock 0 (always (inr server_error)) [].

(** A call that ended in state [out.2] with answer or exception [out.1] after
    rejecting the content with message [msg]: with [ignore_bad_request] the
    message is logged and nothing is returned; without it a failure entry is
    recorded and a [ValueError] raised, both carrying the message as the
    last [except] clause words it. *)
Definition content_fault (key url : string) (ignore_bad_request : bool) (msg : string)
    (s : State) (out : Result Answer * State) : Prop :=
  if ignore_bad_request then
    out.1 = Ret Nothing /\
    log out.2 = log s ++ [LogError msg] /\
    successful_cache out.2 = successful_cache s /\
    bad_request_cache out.2 = bad_request_cache s
  else
    let wrapped := "An unexpected error occurred: " +:+ msg +:+ " received from " +:+ url in
    out.1 = Raise (ValueError wrapped) /\
    (exists entry, bad_request_cache out.2 !! key = Some entry /\ f_error entry = wrapped) /\
    successful_cache out.2 = successful_cache s.

(** An engine whose first GET of [url_x] is answered with a page. *)
Definition page_engine : State :=
  new_engine ticking_clock (always (inr (html_response "<html>ok</html>"))).

(** An engine whose GETs are answered with the JSON document ["ok"], a bare
    string. *)
Definition json_string_engine : State :=
  new_engine ticking_clock (always (inr (json_response (Json.dumps_str "ok") (PyStr "ok")))).

(** An engine whose first GET is answered with a page and whose later GETs
    with another page, or with a server error. *)
Definition changing_page_engine : State :=
  new_engine ticking_clock
    (first_then (html_response "<html>old</html>") (html_response "<html>new</html>")).

Definition failing_later_engine : State :=
  new_engine ticking_clock (first_then (html_response "<html>ok</html>") server_error).

(** ** Vocabulary of further properties *)

(** Every entry sits under the key of its own url and params. *)
Definition entries_keyed (s : State) : Prop :=
  (forall key entry, successful_cache s !! key = Some entry ->
     cache_key (s_url entry) (s_params entry) = key) /\
  (forall key entry, bad_request_cache s !! key = Some entry ->
     cache_key (f_url entry) (f_params entry) = key).

(** The clock never goes back. *)
Definition clock_monotone (s : State) : Prop :=
  forall n, clock s n <= clock s (S n).

(** In every success entry [first_request] is not later than [last_request],
    and [last_request] is not later than the clock's next reading. *)
Definition success_times_ordered (s : State) : Prop :=
  forall key entry, successful_cache s !! key = Some entry ->
    s_first_request entry <= s_last_request entry /\
    s_last_request entry <= clock s (ticks s).

(** The cache file holds the two tables as they are. *)
Definition file_in_sync (s : State) : Prop :=
  cache_file s = Saved (successful_cache s) (bad_request_cache s).

(** The characters [' '..'~']. *)
Definition printable (c : ascii) : bool :=
  let n := N_of_ascii c in ((32 <=? n) && (n <=? 126))%N.

(** ** [movies.py] *)

(** [fetch_movies_for_year(base_url, html_fetcher, movie_year)]: the engine is
    the state, [stdout] collects what [print] writes.  The function catches
    every exception, prints it and returns the empty list. *)
Definition fetch_movies_for_year (base_url movie_year : string) (stdout : list string)
    (s : State) : Content * list string * State :=
  match fetch_content base_url [("ajax", VStr "true"); ("year", VStr movie_year)]
                      None false false s with
  | (Ret json_content, s') => (returned json_content, stdout, s')
  | (Raise e, s') =>
      (Value (PyList []),
       stdout ++ ["Error fetching data for year " +:+ movie_year +:+ ": " +:+ exn_str e],
       s')
  end.

(** The engine of [page_engine] after a first fetch of [url_x]. *)
Definition page_cached : State :=
  (fetch_content url_x [] None false false page_engine).2.

(** The same world with another answer of the disk to writes. *)
Definition with_disk_error (err : option string) (s : State) : State :=
  mkState (successful_cache s) (bad_request_cache s) (cache_file s) err
          (log s) (clock s) (ticks s) (network s) (sent s).

(** The engine of [failing_later_engine] after a first fetch of [url_x]: the
    page is stored, and the next GET will get a server error. *)
Definition refresh_will_fail : State :=
  (fetch_content url_x [] None false false failing_later_engine).2.

(** * Properties *)

(** ** The request key *)

Example cache_key_teams :
  cache_key "https://www.scrapethissite.com/pages/forms/" [("page_num", VInt 3)]
  = "[" +:+ String Json.quote "https://www.scrapethissite.com/pages/forms/"
      +:+ String Json.quote ", [[" +:+ String Json.quote "page_num"
      +:+ String Json.quote ", 3]]]".
Proof. vm_compute. reflexivity. Qed.

Example cache_key_movies_order :
  cache_key "u" [("year", VStr "2015"); ("ajax", VStr "true")]
  = cache_key "u" [("ajax", VStr "true"); ("year", VStr "2015")].
Proof. vm_compute. reflexivity. Qed.

Example escape_latin1 :
  Json.escape (String "233"%char (String "010"%char "t/a"))
  = String Json.backslash "u00e9" +:+ String Json.backslash "nt/a".
Proof. vm_compute. reflexivity. Qed.

Example lower_content_type :
  lower "Text/HTML; Charset=UTF-8" = "text/html; charset=utf-8".
Proof. vm_compute. reflexivity. Qed.

Example contains_json :
  contains "application/json" (lower "Application/JSON") = true
  /\ contains "text/html" (lower "application/json") = false.
Proof. split; vm_compute; reflexivity. Qed.

Module JsonFacts.
Import Json.

Lemma unescape_head_escape_char c rest :
  unescape_head (escape_char c +:+ rest) = Some (c, rest).
Proof.
  destruct c as [[] [] [] [] [] [] [] []]; reflexivity.
Qed.

Lemma app_cons (x : ascii) (a b : string) : String x a +:+ b = String x (a +:+ b).
Proof. reflexivity. Qed.

Lemma app_nil_l (a : string) : EmptyString +:+ a = a.
Proof. reflexivity. Qed.

Lemma app_assoc (a b c : string) : (a +:+ b) +:+ c = a +:+ (b +:+ c).
Proof.
  induction a as [|x a IH]; [done |]. by rewrite !app_cons, IH.
Qed.

(** A quoted string can be read off the front of any text. *)
Lemma escape_inj_tail s1 s2 r1 r2 :
  escape s1 +:+ String quote r1 = escape s2 +:+ String quote r2 ->
  s1 = s2 /\ r1 = r2.
Proof.
  revert s2. induction s1 as [|c1 s1 IH]; intros [|c2 s2] H; cbn [escape] in H.
  - rewrite !app_nil_l in H. by simplify_eq.
  - exfalso. rewrite app_assoc, app_nil_l in H.
    pose proof (f_equal unescape_head H) as H'.
    rewrite unescape_head_escape_char in H'. injection H' as <- _.
    discriminate H.
  - exfalso. rewrite app_assoc, app_nil_l in H.
    pose proof (f_equal unescape_head H) as H'.
    rewrite unescape_head_escape_char in H'. injection H' as -> _.
    discriminate H.
  - rewrite !app_assoc in H. apply (f_equal unescape_head) in H.
    rewrite !unescape_head_escape_char in H. simplify_eq.
    destruct (IH s2) as [-> ->]; done.
Qed.

Lemma quoted_inj_tail s1 s2 r1 r2 :
  (escape s1 +:+ String quote EmptyString) +:+ r1
  = (escape s2 +:+ String quote EmptyString) +:+ r2 ->
  s1 = s2 /\ r1 = r2.
Proof. rewrite !app_assoc, !app_cons, !app_nil_l. apply escape_inj_tail. Qed.

Lemma dumps_str_inj_tail s1 s2 r1 r2 :
  dumps_str s1 +:+ r1 = dumps_str s2 +:+ r2 -> s1 = s2 /\ r1 = r2.
Proof.
  unfold dumps_str. rewrite !app_cons, !app_assoc, !app_cons, !app_nil_l.
  intros [= H]. by apply escape_inj_tail.
Qed.

(** *** Integers *)

Lemma all_chars_uint d : all_chars decimal_char (NilEmpty.string_of_uint d) = true.
Proof. induction d; cbn; done. Qed.

Lemma all_chars_dumps_int n : all_chars decimal_char (dumps_int n) = true.
Proof.
  unfold dumps_int.
  destruct (Z.to_int n) as [d|d]; cbn; destruct d; cbn; rewrite ?all_chars_uint; reflexivity.
Qed.

(** Two texts without the character [x] that end at the same [x]. *)
Lemma split_at_char P x s1 s2 r1 r2 :
  P x = false ->
  all_chars P s1 = true -> all_chars P s2 = true ->
  s1 +:+ String x r1 = s2 +:+ String x r2 -> s1 = s2 /\ r1 = r2.
Proof.
  intros Hx. revert s2.
  induction s1 as [|c1 s1 IH]; intros [|c2 s2] H1 H2 H;
    rewrite ?app_cons, ?app_nil_l in H; cbn in H1, H2.
  - by simplify_eq.
  - simplify_eq. by rewrite Hx in H2.
  - simplify_eq. by rewrite Hx in H1.
  - apply andb_prop in H1 as [_ H1]. apply andb_prop in H2 as [_ H2].
    injection H as -> H. destruct (IH s2 H1 H2 H) as [-> ->]. done.
Qed.

Lemma to_int_printable n : Z.to_int n <> Decimal.Pos Decimal.Nil /\ Z.to_int n <> Decimal.Neg Decimal.Nil.
Proof.
  destruct n as [|p|p]; cbn; split; try done.
  - intros [= H]. by apply DecimalPos.Unsigned.to_uint_nonnil in H.
  - intros [= H]. by apply DecimalPos.Unsigned.to_uint_nonnil in H.
Qed.

Lemma dumps_int_inj n1 n2 : dumps_int n1 = dumps_int n2 -> n1 = n2.
Proof.
  unfold dumps_int. intros H. apply (f_equal NilZero.int_of_string) in H.
  destruct (to_int_printable n1), (to_int_printable n2).
  rewrite !NilZero.isi in H by done.
  apply DecimalZ.to_int_inj. congruence.
Qed.

Lemma dumps_int_inj_tail n1 n2 r1 r2 :
  dumps_int n1 +:+ String "]" r1 = dumps_int n2 +:+ String "]" r2 ->
  n1 = n2 /\ r1 = r2.
Proof.
  intros H.
  apply (split_at_char decimal_char) in H as [H ->];
    auto using all_chars_dumps_int.
  split; [by apply dumps_int_inj | done].
Qed.

Lemma dumps_int_not_str n s r1 r2 :
  dumps_int n +:+ String "]" r1 = dumps_str s +:+ r2 -> False.
Proof.
  pose proof (all_chars_dumps_int n) as Hn. unfold dumps_str.
  destruct (dumps_int n) as [|c t]; rewrite ?app_cons, ?app_nil_l; [done |].
  intros [= -> _]. done.
Qed.

(** *** Items and arrays *)

Lemma dumps_value_inj_tail v1 v2 r1 r2 :
  dumps_value v1 +:+ String "]" r1 = dumps_value v2 +:+ String "]" r2 ->
  v1 = v2 /\ r1 = r2.
Proof.
  destruct v1 as [s1|n1], v2 as [s2|n2]; cbn [dumps_value]; intros H.
  - apply dumps_str_inj_tail in H as [-> [= ->]]. done.
  - symmetry in H. by apply dumps_int_not_str in H.
  - by apply dumps_int_not_str in H.
  - apply dumps_int_inj_tail in H as [-> ->]. done.
Qed.

Ltac norm_app := repeat first [rewrite app_assoc | rewrite app_cons | rewrite app_nil_l].

Lemma dumps_item_app k v r :
  dumps_item (k, v) +:+ r
  = String "[" (dumps_str k +:+ String "," (String " " (dumps_value v +:+ String "]" r))).
Proof.
  unfold dumps_item. cbn [fst snd].
  generalize (dumps_str k) (dumps_value v). intros a b. norm_app. reflexivity.
Qed.

Lemma dumps_item_inj_tail kv1 kv2 r1 r2 :
  dumps_item kv1 +:+ r1 = dumps_item kv2 +:+ r2 -> kv1 = kv2 /\ r1 = r2.
Proof.
  destruct kv1 as [k1 v1], kv2 as [k2 v2]. rewrite !dumps_item_app. intros [= H].
  apply quoted_inj_tail in H as [-> [= H]].
  apply dumps_value_inj_tail in H as [-> ->]. done.
Qed.

Lemma app_nil_r (a : string) : a +:+ EmptyString = a.
Proof. induction a as [|c a IH]; [done |]. by rewrite app_cons, IH. Qed.

Lemma dumps_item_head kv : exists t, dumps_item kv = String "[" t.
Proof.
  destruct kv as [k v]. pose proof (dumps_item_app k v EmptyString) as H.
  rewrite app_nil_r in H. eauto.
Qed.

Lemma join_items_cons kv l :
  join_items (kv :: l)
  = dumps_item kv +:+ match l with [] => EmptyString | _ => ", " +:+ join_items l end.
Proof.
  destruct l; cbn [join_items]; [|done]. by rewrite app_nil_r.
Qed.

Lemma join_items_inj_tail l1 l2 r1 r2 :
  join_items l1 +:+ String "]" r1 = join_items l2 +:+ String "]" r2 ->
  l1 = l2 /\ r1 = r2.
Proof.
  revert l2. induction l1 as [|kv1 l1 IH]; intros [|kv2 l2].
  - cbn [join_items]. rewrite !app_nil_l. by intros [= ->].
  - rewrite join_items_cons. destruct (dumps_item_head kv2) as [t ->].
    cbn [join_items]. rewrite !app_cons, !app_nil_l. done.
  - rewrite join_items_cons. destruct (dumps_item_head kv1) as [t ->].
    cbn [join_items]. rewrite !app_cons, !app_nil_l. done.
  - rewrite !join_items_cons, !app_assoc. intros H.
    apply dumps_item_inj_tail in H as [-> H].
    destruct l1 as [|x1 l1], l2 as [|x2 l2];
      rewrite ?app_cons, ?app_nil_l in H; try done.
    + by simplify_eq.
    + injection H as H. destruct (IH (x2 :: l2) H) as [-> ->]. done.
Qed.

Lemma dumps_eq url items :
  dumps url items
  = String "[" (dumps_str url +:+
      String "," (String " " (String "[" (join_items items +:+ String "]" (String "]" EmptyString))))).
Proof.
  unfold dumps, dumps_items.
  generalize (dumps_str url) (join_items items). intros a b. norm_app. reflexivity.
Qed.

Lemma dumps_inj url1 url2 items1 items2 :
  dumps url1 items1 = dumps url2 items2 -> url1 = url2 /\ items1 = items2.
Proof.
  rewrite !dumps_eq. intros [= H].
  apply quoted_inj_tail in H as [-> [= H]].
  apply join_items_inj_tail in H as [-> _]. done.
Qed.

End JsonFacts.

(** *** [sorted] *)

#[local] Instance item_le_trans : Transitive item_le.
Proof. intros a b c. unfold item_le. apply transitivity. Qed.

#[local] Instance item_le_total : Total item_le.
Proof. intros a b. unfold item_le. apply total, _. Qed.

Lemma sorted_Permutation params : sorted params ≡ₚ params.
Proof. apply merge_sort_Permutation. Qed.

Lemma sorted_Sorted params : Sorted item_le (sorted params).
Proof. apply Sorted_merge_sort, _. Qed.

(** Two items of a dict with the same name are the same item. *)
Lemma dict_item_unique (params : Params) a b :
  dict_wf params -> a ∈ params -> b ∈ params -> a.1 = b.1 -> a = b.
Proof.
  unfold dict_wf. induction params as [|x l IH]; intros Hnd Ha Hb Hab.
  - by apply elem_of_nil in Ha.
  - rewrite fmap_cons in Hnd. apply NoDup_cons in Hnd as [Hx Hnd].
    apply elem_of_cons in Ha as [->|Ha]; apply elem_of_cons in Hb as [->|Hb]; auto.
    + exfalso. apply Hx. rewrite Hab. by apply list_elem_of_fmap_2.
    + exfalso. apply Hx. rewrite <- Hab. by apply list_elem_of_fmap_2.
Qed.

(** The sorted items do not depend on the insertion order. *)
Lemma sorted_order_irrelevant params1 params2 :
  dict_wf params1 -> params1 ≡ₚ params2 -> sorted params1 = sorted params2.
Proof.
  intros Hwf Hperm.
  apply (Sorted_unique_strong item_le); auto using sorted_Sorted.
  - intros a b Ha Hb Hab Hba.
    apply (dict_item_unique params1); auto.
    + by rewrite <- (sorted_Permutation params1).
    + by rewrite Hperm, <- (sorted_Permutation params2).
    + unfold item_le in *. by apply (anti_symm String.le).
  - by rewrite !sorted_Permutation.
Qed.



(** ** The engine, path by path *)

Lemma save_cache_to_file_run s : save_cache_to_file s = (Ret tt, persist s).
Proof. unfold save_cache_to_file, persist. by destruct (disk_error s). Qed.

(** Unfolds the monad's operations and runs what can be run. *)
Ltac run :=
  repeat first
    [ progress cbv beta iota zeta delta
        [mbind M_bind mret M_ret modify get_state raise time_time logger_error
         try_except await negb]
    | rewrite save_cache_to_file_run ].

Lemma handle_error_run key url params msg ignore s :
  _handle_error_and_cache key url params msg ignore s
  = if ignore then (Ret tt, add_log (LogError msg) s)
    else (Raise (ValueError msg), record_failure key url params msg s).
Proof.
  unfold _handle_error_and_cache, record_failure. destruct ignore; run; [done |].
  cbn [bad_request_cache tick].
  destruct (bad_request_cache s !! key) as [old|]; run; reflexivity.
Qed.

Lemma delete_absent key s :
  bad_request_cache s !! key = None -> set_bad_request_cache (delete key) s = s.
Proof.
  intros H. destruct s. unfold set_bad_request_cache. cbn in *. by rewrite delete_id.
Qed.

Lemma try_run key url params ignore s :
  try_except (try_body key url params ignore) (except_clauses key url params ignore) s
  = match (if negb ignore then bad_request_cache s !! key else None) with
    | Some entry =>
        fault key url params false
          (error_message_of url
             (ValueError ("Request was previously marked as bad: " +:+ key)))
          (add_log (LogError ("Ignoring request due to previous failure: " +:+ key))
             (set_bad_request_cache
                (insert key (touch_failure (clock s (ticks s)) entry)) (tick s)))
    | None =>
        let s1 := add_sent url params s in
        match verdict url (next_response url params s) with
        | Stored data content => (Ret (Fresh content), store_success key url params data s1)
        | Raised e => fault key url params ignore (error_message_of url e) s1
        | Rejected msg =>
            if ignore then (Ret Nothing, add_log (LogError msg) s1)
            else fault key url params false (error_message_of url (ValueError msg))
                   (record_failure key url params msg s1)
        end
    end.
Proof.
  unfold try_body, except_clauses, fault, verdict, next_response, session_get,
    raise_for_status, store_success.
  destruct ignore; run; cbn [bad_request_cache sent network add_sent].
  - destruct (network s (length (sent s)) url params) as [e|response]; run;
      [by rewrite handle_error_run |].
    destruct (400 <=? status response); run; [by rewrite handle_error_run |].
    destruct (contains "text/html" _); [|destruct (contains "application/json" _)].
    + destruct (text response) as [e|[|c body]]; run; rewrite ?handle_error_run; try done.
      cbn [bad_request_cache set_successful_cache tick ticks clock add_sent].
      destruct (bad_request_cache s !! key) eqn:E; run; [done |].
      by rewrite (delete_absent key (set_successful_cache _ _)).
    + destruct (json response) as [e|v]; run; rewrite ?handle_error_run; try done.
      cbn [bad_request_cache set_successful_cache tick ticks clock add_sent].
      destruct (bad_request_cache s !! key) eqn:E; run; [done |].
      by rewrite (delete_absent key (set_successful_cache _ _)).
    + run. by rewrite handle_error_run.
  - destruct (bad_request_cache s !! key) as [entry|] eqn:Hbad; run.
    { by rewrite handle_error_run. }
    destruct (network s (length (sent s)) url params) as [e|response]; run;
      [by rewrite handle_error_run |].
    destruct (400 <=? status response); run; [by rewrite handle_error_run |].
    destruct (contains "text/html" _); [|destruct (contains "application/json" _)].
    + destruct (text response) as [e|[|c body]]; run; rewrite ?handle_error_run; try done.
      cbn [bad_request_cache set_successful_cache tick ticks clock add_sent].
      rewrite Hbad; run.
      by rewrite (delete_absent key (set_successful_cache _ _)).
    + destruct (json response) as [e|v]; run; rewrite ?handle_error_run; try done.
      cbn [bad_request_cache set_successful_cache tick ticks clock add_sent].
      rewrite Hbad; run.
      by rewrite (delete_absent key (set_successful_cache _ _)).
    + run. by rewrite !handle_error_run.
Qed.

(** Every call of [fetch_content] follows one of the paths of [outcome]. *)
Lemma fetch_content_outcome url params session force ignore s :
  fetch_content url params session force ignore s = outcome url params force ignore s.
Proof.
  assert (_fetch_with_session url params force ignore s = outcome url params force ignore s)
    as H; [|by destruct session].
  unfold _fetch_with_session, outcome.
  destruct force; run; [apply try_run |].
  destruct (successful_cache s !! cache_key url params); [done | apply try_run].
Qed.

(** ** What each step changes *)

Lemma persist_successful_cache s : successful_cache (persist s) = successful_cache s.
Proof. unfold persist. by destruct (disk_error s). Qed.

Lemma persist_bad_request_cache s : bad_request_cache (persist s) = bad_request_cache s.
Proof. unfold persist. by destruct (disk_error s). Qed.

Lemma persist_sent s : sent (persist s) = sent s.
Proof. unfold persist. by destruct (disk_error s). Qed.

Lemma persist_disk_error s : disk_error (persist s) = disk_error s.
Proof. unfold persist. destruct (disk_error s) eqn:E; cbn; done. Qed.

Lemma persist_cache_file s :
  disk_error s = None ->
  cache_file (persist s) = Saved (successful_cache s) (bad_request_cache s).
Proof. unfold persist. by intros ->. Qed.

Lemma persist_written s :
  disk_error s = None ->
  cache_file (persist s)
  = Saved (successful_cache (persist s)) (bad_request_cache (persist s)).
Proof.
  intros H. by rewrite persist_successful_cache, persist_bad_request_cache, persist_cache_file.
Qed.

Lemma record_failure_successful_cache key url params msg s :
  successful_cache (record_failure key url params msg s) = successful_cache s.
Proof.
  unfold record_failure. destruct (bad_request_cache s !! key);
    by rewrite persist_successful_cache.
Qed.

Lemma record_failure_bad_request_cache key url params msg s :
  bad_request_cache (record_failure key url params msg s)
  = <[key := mkFailure url params (clock s (ticks s)) msg
               match bad_request_cache s !! key with
               | Some old => f_first_request old
               | None => clock s (S (ticks s))
               end]> (bad_request_cache s).
Proof.
  unfold record_failure. destruct (bad_request_cache s !! key);
    by rewrite persist_bad_request_cache.
Qed.

Lemma record_failure_sent key url params msg s : sent (record_failure key url params msg s) = sent s.
Proof.
  unfold record_failure. destruct (bad_request_cache s !! key); by rewrite persist_sent.
Qed.

Lemma record_failure_disk_error key url params msg s :
  disk_error (record_failure key url params msg s) = disk_error s.
Proof.
  unfold record_failure. destruct (bad_request_cache s !! key);
    by rewrite persist_disk_error.
Qed.

Lemma record_failure_written key url params msg s :
  disk_error s = None ->
  cache_file (record_failure key url params msg s)
  = Saved (successful_cache (record_failure key url params msg s))
          (bad_request_cache (record_failure key url params msg s)).
Proof.
  intros H. unfold record_failure.
  destruct (bad_request_cache s !! key); by apply persist_written.
Qed.

Lemma store_success_successful_cache key url params data s :
  successful_cache (store_success key url params data s)
  = <[key := mkSuccess url params (clock s (ticks s)) (clock s (S (ticks s))) data]>
      (successful_cache s).
Proof. unfold store_success. by rewrite persist_successful_cache. Qed.

Lemma store_success_bad_request_cache key url params data s :
  bad_request_cache (store_success key url params data s)
  = delete key (bad_request_cache s).
Proof. unfold store_success. by rewrite persist_bad_request_cache. Qed.

Lemma store_success_sent key url params data s : sent (store_success key url params data s) = sent s.
Proof. unfold store_success. by rewrite persist_sent. Qed.

Lemma store_success_written key url params data s :
  disk_error s = None ->
  cache_file (store_success key url params data s)
  = Saved (successful_cache (store_success key url params data s))
          (bad_request_cache (store_success key url params data s)).
Proof. intros H. unfold store_success. by apply persist_written. Qed.


Create Rewrite HintDb state.
#[local] Hint Rewrite persist_successful_cache persist_bad_request_cache persist_sent
  persist_disk_error record_failure_successful_cache record_failure_bad_request_cache
  record_failure_sent record_failure_disk_error store_success_successful_cache
  store_success_bad_request_cache store_success_sent : state.

(** Rewrites the projections of the state a path ends in. *)
Ltac project :=
  repeat first
    [ progress autorewrite with state
    | progress cbn [fst snd successful_cache bad_request_cache cache_file disk_error log
                    clock ticks network sent set_successful_cache set_bad_request_cache
                    set_cache_file add_log tick add_sent] ].

(** ** The success-cache read *)



(** ** The failure-cache read *)



(** ** Request faults *)



(** C9, as the code has it: a fetch that reaches the network for a key with
    no failure entry and gets a status of 400 or more raises a [ValueError]
    with the transport error's text, and the failure table gets one entry
    under the key; its [last_request] is the first clock reading of the
    recording and its [first_request] the second, so the two are equal
    exactly when the clock did not move in between. *)
Theorem failed_status_is_recorded url params session force s response :
  misses (cache_key url params) force s ->
  bad_request_cache s !! cache_key url params = None ->
  next_response url params s = inr response ->
  400 <= status response ->
  let key := cache_key url params in
  let msg := "An error occurred during HTTP request: " +:+ status_error response
               +:+ " received from " +:+ url in
  let out := fetch_content url params session force false s in
  out.1 = Raise (ValueError msg) /\
  bad_request_cache out.2
  = <[key := mkFailure url params (clock s (ticks s)) msg (clock s (S (ticks s)))]>
      (bad_request_cache s) /\
  successful_cache out.2 = successful_cache s /\
  sent out.2 = sent s ++ [(url, params)] /\
  (forall entry, bad_request_cache out.2 !! key = Some entry ->
     f_first_request entry = f_last_request entry
     <-> clock s (S (ticks s)) = clock s (ticks s)).
Proof.
  intros Hmiss Hbad Hnet Hstatus. cbv zeta. rewrite fetch_content_outcome. unfold outcome.
  assert ((if negb force then successful_cache s !! cache_key url params else None) = None)
    as ->.
  { destruct Hmiss as [-> | ->]; [done | by destruct force]. }
  cbn [negb]. rewrite Hbad, Hnet. unfold verdict.
  apply Z.leb_le in Hstatus. rewrite Hstatus. unfold fault. project. rewrite Hbad.
  do 4 (split; [done |]).
  intros entry Hentry. rewrite lookup_insert_eq in Hentry. by simplify_eq.
Qed.

Lemma failed_status_is_recorded_witness :
  let key := cache_key url_y [("a", VStr "1")] in
  let msg := "An error occurred during HTTP request: " +:+ status_error server_error
               +:+ " received from " +:+ url_y in
  let s := new_engine frozen_clock (always (inr server_error)) in
  let out := fetch_content url_y [("a", VStr "1")] None false false s in
  out.1 = Raise (ValueError msg) /\
  bad_request_cache out.2
  = <[key := mkFailure url_y [("a", VStr "1")] 1700000000 msg 1700000000]> ∅ /\
  successful_cache out.2 = ∅ /\
  sent out.2 = [(url_y, [("a", VStr "1")])] /\
  (forall entry, bad_request_cache out.2 !! key = Some entry ->
     f_first_request entry = f_last_request entry
     <-> 1700000000 = 1700000000).
Proof.
  apply (failed_status_is_recorded url_y [("a", VStr "1")] None false
           (new_engine frozen_clock (always (inr server_error))) server_error).
  - right. reflexivity.
  - reflexivity.
  - reflexivity.
  - vm_compute. discriminate.
Defined.

(** C9 as stated fails when the clock moves between the two readings: the
    entry's [first_request] is later than its [last_request]. *)
Lemma first_request_differs_from_last_request :
  let key := cache_key url_y [("a", VStr "1")] in
  let s := new_engine ticking_clock (always (inr server_error)) in
  let out := fetch_content url_y [("a", VStr "1")] None false false s in
  (exists entry, bad_request_cache out.2 !! key = Some entry /\
     f_last_request entry = 1700000000 /\ f_first_request entry = 1700000001) /\
  ~ (exists entry, bad_request_cache out.2 !! key = Some entry /\
       f_first_request entry = f_last_request entry).
Proof.
  cbv zeta. split.
  - eexists. split; [vm_compute; reflexivity |]. split; reflexivity.
  - intros (entry & Hentry & Heq). vm_compute in Hentry.
    injection Hentry as <-. vm_compute in Heq. discriminate.
Qed.

(** ** Fetches that reach the network *)

Lemma misses_lookup key force s :
  misses key force s -> (if negb force then successful_cache s !! key else None) = None.
Proof. intros [-> | ->]; [done | by destruct force]. Qed.

Lemma not_failed_lookup key ignore s :
  ignore = true \/ bad_request_cache s !! key = None ->
  (if negb ignore then bad_request_cache s !! key else None) = None.
Proof. intros [-> | ->]; [done | by destruct ignore]. Qed.

Lemma outcome_network url params force ignore s :
  reaches_network (cache_key url params) force ignore s ->
  outcome url params force ignore s
  = let key := cache_key url params in
    let s1 := add_sent url params s in
    match verdict url (next_response url params s) with
    | Stored data content => (Ret (Fresh content), store_success key url params data s1)
    | Raised e => fault key url params ignore (error_message_of url e) s1
    | Rejected msg =>
        if ignore then (Ret Nothing, add_log (LogError msg) s1)
        else fault key url params false (error_message_of url (ValueError msg))
               (record_failure key url params msg s1)
    end.
Proof.
  intros [Hmiss Hbad]. unfold outcome.
  by rewrite (misses_lookup _ _ _ Hmiss), (not_failed_lookup _ _ _ Hbad).
Qed.

Lemma rejected_is_content_fault url params force ignore s msg :
  reaches_network (cache_key url params) force ignore s ->
  verdict url (next_response url params s) = Rejected msg ->
  content_fault (cache_key url params) url ignore msg s (outcome url params force ignore s).
Proof.
  intros Hreach Hv. rewrite (outcome_network _ _ _ _ _ Hreach). cbv zeta. rewrite Hv.
  unfold content_fault, fault. destruct ignore; project; [done |].
  rewrite lookup_insert_eq. repeat split; eauto.
Qed.



(** A response declared as [text/plain]: the fault names the content type,
    and a failure entry is recorded under the key. *)
Example text_plain_is_rejected :
  let s := new_engine ticking_clock (always (inr (plain_response "hello"))) in
  let out := fetch_content url_x [] None false false s in
  out.1 = Raise (ValueError
                   ("An unexpected error occurred: Unexpected content type 'text/plain'"
                      +:+ " received from https://example.test/x"
                      +:+ " received from https://example.test/x")) /\
  f_first_request <$> bad_request_cache out.2 !! cache_key url_x [] = Some 1700000001 /\
  f_last_request <$> bad_request_cache out.2 !! cache_key url_x [] = Some 1700000002 /\
  successful_cache out.2 = ∅.
Proof. cbv zeta. repeat split; vm_compute; reflexivity. Qed.

(** ** Repeating a fetch *)

(** What is stored reads back as what was returned, unless a JSON response
    decoded to a bare string. *)
Lemma verdict_stored_reads_back url out data content :
  verdict url out = Stored data content ->
  read_data data = content \/ exists str, content = Value (PyStr str).
Proof.
  unfold verdict. destruct out as [e|response]; [done |].
  destruct (400 <=? status response); [done |].
  destruct (contains "text/html" _).
  - destruct (text response) as [e|[|c body]]; intros; simplify_eq. by left.
  - destruct (contains "application/json" _); [|done].
    destruct (json response) as [e|decoded]; [done |]. intros [= <- <-].
    destruct decoded; eauto.
Qed.

(** After a call that returned something, the key has a success entry. *)
Lemma answered_entry url params force ignore s answer :
  (outcome url params force ignore s).1 = Ret answer ->
  answer <> Nothing ->
  exists entry,
    successful_cache (outcome url params force ignore s).2 !! cache_key url params
    = Some entry /\
    (read_data (s_data entry) = returned answer \/
     exists str, answer = Fresh (Value (PyStr str))).
Proof.
  unfold outcome.
  destruct (if negb force then _ else _) as [entry|].
  { intros [= <-] _. project. rewrite lookup_insert_eq. eexists. split; [done |]. by left. }
  destruct (if negb ignore then _ else _) as [entry|]; [done |].
  destruct (verdict url _) as [data content| e | msg] eqn:Hv; unfold fault.
  - intros [= <-] _. project. rewrite lookup_insert_eq. eexists. split; [done |].
    destruct (verdict_stored_reads_back _ _ _ _ Hv) as [?|[str ->]]; eauto.
  - by destruct ignore; intros [= <-].
  - by destruct ignore; intros [= <-].
Qed.




(** ** [first_request] of a success entry *)

(** C3 fails on the code: a forced refresh that succeeds replaces the whole
    entry, its [first_request] included, by the readings of the clock at the
    refresh; the first success of the key was at 1700000000. *)
Lemma forced_refresh_resets_first_request :
  let key := cache_key url_x [] in
  let out1 := fetch_content url_x [] None false false changing_page_engine in
  let out2 := fetch_content url_x [] None true false out1.2 in
  successful_cache out1.2 !! key
  = Some (mkSuccess url_x [] 1700000000 1700000001 (PyStr "<html>old</html>")) /\
  out2.1 = Ret (Fresh (Soup "<html>new</html>")) /\
  successful_cache out2.2 !! key
  = Some (mkSuccess url_x [] 1700000002 1700000003 (PyStr "<html>new</html>")).
Proof. cbv zeta. repeat split; vm_compute; reflexivity. Qed.

(** The same for every state: the entry written by a stored response has the
    clock's reading at the write as its [first_request], whatever entry the
    key had. *)
Lemma stored_response_first_request url params session force ignore s content :
  (fetch_content url params session force ignore s).1 = Ret (Fresh content) ->
  s_first_request <$>
    successful_cache (fetch_content url params session force ignore s).2
      !! cache_key url params
  = Some (clock s (ticks s)).
Proof.
  rewrite fetch_content_outcome. unfold outcome.
  destruct (if negb force then _ else _); [done |].
  destruct (if negb ignore then _ else _); [done |].
  destruct (verdict url _); unfold fault.
  - intros _. project. by rewrite lookup_insert_eq.
  - by destruct ignore.
  - by destruct ignore.
Qed.

(** ** Writing the cache file *)




(** ** Keys in both tables *)

Lemma disjoint_same_tables s s' :
  successful_cache s' = successful_cache s ->
  bad_request_cache s' = bad_request_cache s ->
  tables_disjoint s -> tables_disjoint s'.
Proof. unfold tables_disjoint. intros -> ->. done. Qed.

Lemma disjoint_touch key entry entry' s s' :
  successful_cache s !! key = Some entry ->
  successful_cache s' = <[key := entry']> (successful_cache s) ->
  bad_request_cache s' = bad_request_cache s ->
  tables_disjoint s -> tables_disjoint s'.
Proof.
  unfold tables_disjoint. intros Hentry -> -> H k.
  destruct (decide (k = key)) as [->|Hne].
  - right. destruct (H key) as [H'|H']; [congruence | done].
  - rewrite lookup_insert_ne by done. apply H.
Qed.

Lemma disjoint_store key entry s s' :
  successful_cache s' = <[key := entry]> (successful_cache s) ->
  bad_request_cache s' = delete key (bad_request_cache s) ->
  tables_disjoint s -> tables_disjoint s'.
Proof.
  unfold tables_disjoint. intros -> -> H k.
  destruct (decide (k = key)) as [->|Hne].
  - right. apply lookup_delete_eq.
  - rewrite lookup_insert_ne, lookup_delete_ne by done. apply H.
Qed.

Lemma disjoint_record key s s' :
  successful_cache s !! key = None ->
  successful_cache s' = successful_cache s ->
  (forall k, k <> key -> bad_request_cache s' !! k = bad_request_cache s !! k) ->
  tables_disjoint s -> tables_disjoint s'.
Proof.
  unfold tables_disjoint. intros Hkey -> Hbad H k.
  destruct (decide (k = key)) as [->|Hne].
  - by left.
  - rewrite Hbad by done. apply H.
Qed.

Lemma fetch_disjoint url params session force ignore s :
  tables_disjoint s ->
  let key := cache_key url params in
  let out := fetch_content url params session force ignore s in
  ((force = false \/ ignore = true \/ successful_cache s !! key = None \/
    (exists answer, out.1 = Ret answer)) ->
   tables_disjoint out.2) /\
  (forall content, out.1 = Ret (Fresh content) ->
     is_Some (successful_cache out.2 !! key) /\ bad_request_cache out.2 !! key = None).
Proof.
  intros Hdis. cbv zeta. rewrite fetch_content_outcome. unfold outcome.
  destruct (if negb force then _ else _) as [entry|] eqn:Hhit.
  { split; [|done]. intros _. destruct force; [done |]. cbn [negb] in Hhit.
    eapply disjoint_touch; [exact Hhit | | | exact Hdis]; by project. }
  assert (force = false -> successful_cache s !! cache_key url params = None) as Hmiss.
  { by intros ->. }
  destruct (if negb ignore then _ else _) as [failure|] eqn:Hfailed.
  { split; [|done]. intros _. destruct ignore; [done |]. cbn [negb] in Hfailed.
    unfold fault. cbn [snd].
    eapply disjoint_record; [ | | | exact Hdis].
    - destruct (Hdis (cache_key url params)) as [H|H]; [exact H | congruence].
    - by project.
    - intros k Hne. project. by rewrite !lookup_insert_ne. }
  destruct (verdict url _) as [data content|e|msg]; unfold fault.
  - split.
    + intros _. eapply disjoint_store; [ | | exact Hdis]; by project.
    + intros ? _. project. rewrite lookup_insert_eq, lookup_delete_eq. eauto.
  - split; [|by destruct ignore]. destruct ignore; cbn [fst snd].
    { intros _. eapply disjoint_same_tables; [ | | exact Hdis]; by project. }
    intros [Hf|[Hi|[Hs|[answer Ha]]]]; try done; [apply Hmiss in Hf as Hs | ];
      (eapply disjoint_record; [exact Hs | | | exact Hdis];
       [by project | intros k Hne; project; by rewrite lookup_insert_ne]).
  - split; [|by destruct ignore]. destruct ignore; cbn [fst snd].
    { intros _. eapply disjoint_same_tables; [ | | exact Hdis]; by project. }
    intros [Hf|[Hi|[Hs|[answer Ha]]]]; try done; [apply Hmiss in Hf as Hs | ];
      (eapply disjoint_record; [exact Hs | | | exact Hdis];
       [by project | intros k Hne; project; by rewrite !lookup_insert_ne]).
Qed.


Lemma run_calls_disjoint calls s :
  tables_disjoint s ->
  Forall (fun c => call_force_refresh c = false \/ call_ignore_bad_request c = true) calls ->
  tables_disjoint (run_calls calls s).
Proof.
  intros Hdis Hcalls. revert s Hdis.
  induction Hcalls as [|c calls Hc _ IH]; intros s Hdis; [done |].
  cbn [run_calls foldl]. apply IH. unfold run_call.
  apply (fetch_disjoint _ _ _ _ _ s Hdis). destruct Hc as [Hc|Hc]; auto.
Qed.




(** * Further properties of the engine *)

(** Splits a call into its paths: cache read, previously failed, stored
    response, exception, rejected content. *)
Ltac paths force ignore :=
  unfold outcome, fault;
  destruct (if negb force then _ else _) as [?entry|] eqn:?Hhit;
  [| destruct (if negb ignore then _ else _) as [?failure|] eqn:?Hfailed;
     [| destruct (verdict _ _) as [?data ?content|?e|?msg] eqn:?Hverdict;
        [| destruct ignore | destruct ignore]]].

(** ** Other keys *)

(** X1: a call reads and writes only the entries under its own key. *)
Theorem other_keys_untouched url params session force ignore s key :
  key <> cache_key url params ->
  let out := fetch_content url params session force ignore s in
  successful_cache out.2 !! key = successful_cache s !! key /\
  bad_request_cache out.2 !! key = bad_request_cache s !! key.
Proof.
  intros Hne. cbv zeta. rewrite fetch_content_outcome.
  paths force ignore; project;
    rewrite ?lookup_insert_ne, ?lookup_delete_ne by done; done.
Qed.

Lemma other_keys_untouched_witness :
  let out := fetch_content url_x [] None false false both_tables in
  successful_cache out.2 !! cache_key url_y [] = successful_cache both_tables !! cache_key url_y [] /\
  bad_request_cache out.2 !! cache_key url_y [] = bad_request_cache both_tables !! cache_key url_y [].
Proof.
  apply (other_keys_untouched url_x [] None false false both_tables (cache_key url_y [])).
  vm_compute. discriminate.
Defined.

(** ** What a call raises and returns *)

Lemma raised_entry url params force ignore s e :
  (outcome url params force ignore s).1 = Raise e ->
  ignore = false /\
  exists msg entry,
    e = ValueError msg /\
    bad_request_cache (outcome url params force ignore s).2 !! cache_key url params
    = Some entry /\
    f_error entry = msg /\ f_url entry = url /\ f_params entry = params.
Proof.
  paths force ignore; project; try done.
  - destruct ignore; [done |]. intros [= <-]. split; [done |].
    rewrite lookup_insert_eq. eauto 10.
  - intros [= <-]. split; [done |]. rewrite lookup_insert_eq. eauto 10.
  - intros [= <-]. split; [done |]. rewrite lookup_insert_eq. eauto 10.
Qed.





(** ** Requests *)

(** X4: a call issues a GET exactly when it gets past both cache reads, and
    then one GET, for its own url and params; otherwise it issues none. *)
Theorem get_issued_iff_reaches_network url params session force ignore s :
  let key := cache_key url params in
  let out := fetch_content url params session force ignore s in
  (sent out.2 = sent s ++ [(url, params)] <-> reaches_network key force ignore s) /\
  (sent out.2 = sent s \/ sent out.2 = sent s ++ [(url, params)]).
Proof.
  cbv zeta. rewrite fetch_content_outcome.
  assert (forall l : list (string * Params), l <> l ++ [(url, params)]) as Hlen.
  { intros l H. apply (f_equal length) in H. rewrite length_app in H. cbn in H. lia. }
  unfold reaches_network, misses.
  paths force ignore; project.
  - split; [|by left]. split; [intros H; by apply Hlen in H |].
    intros [[-> | Hs] _]; [done |]. destruct force; cbn in *; congruence.
  - split; [|by left]. split; [intros H; by apply Hlen in H |].
    intros [_ [-> | Hb]]; [done |]. destruct ignore; cbn in *; congruence.
  - split; [|by right]. split; [intros _ | done].
    split; [destruct force; auto | destruct ignore; auto].
  - split; [|by right]. split; [intros _ | done].
    split; [destruct force; auto | auto].
  - split; [|by right]. split; [intros _ | done].
    split; [destruct force; auto | auto].
  - split; [|by right]. split; [intros _ | done].
    split; [destruct force; auto | auto].
  - split; [|by right]. split; [intros _ | done].
    split; [destruct force; auto | auto].
Qed.



(** ** Entries over time *)

Lemma run_calls_invariant (P : State -> Prop) calls s :
  (forall c s', P s' -> P (run_call c s')) -> P s -> P (run_calls calls s).
Proof.
  intros Hstep. revert s. induction calls as [|c calls IH]; intros s Hs; [done |].
  cbn [run_calls foldl]. apply IH. by apply Hstep.
Qed.

Lemma fetch_keeps_entries url params session force ignore s key :
  let out := fetch_content url params session force ignore s in
  (is_Some (successful_cache s !! key) -> is_Some (successful_cache out.2 !! key)) /\
  (is_Some (bad_request_cache s !! key) ->
   is_Some (bad_request_cache out.2 !! key) \/
   (key = cache_key url params /\ exists content, out.1 = Ret (Fresh content))).
Proof.
  cbv zeta. rewrite fetch_content_outcome.
  destruct (decide (key = cache_key url params)) as [->|Hne].
  - paths force ignore; project; rewrite ?lookup_insert_eq; eauto.
  - paths force ignore; project;
      rewrite ?lookup_insert_ne, ?lookup_delete_ne by done; eauto.
Qed.


(** X7: the [first_request] of a failure entry is never overwritten: as long
    as the key has a failure entry, it is the one recorded first. *)
Theorem failure_first_request_is_kept url params session force ignore s key old new :
  let out := fetch_content url params session force ignore s in
  bad_request_cache s !! key = Some old ->
  bad_request_cache out.2 !! key = Some new ->
  f_first_request new = f_first_request old.
Proof.
  cbv zeta. rewrite fetch_content_outcome. intros Hold.
  destruct (decide (key = cache_key url params)) as [->|Hne].
  - paths force ignore; project; rewrite ?lookup_insert_eq, ?lookup_delete_eq;
      try (intros; by simplify_eq).
    + destruct ignore; [done |]. cbn [negb] in Hfailed.
      rewrite Hold in Hfailed. by intros; simplify_eq.
    + cbn [negb] in Hfailed. congruence.
    + cbn [negb] in Hfailed. congruence.
  - paths force ignore; project;
      rewrite ?lookup_insert_ne, ?lookup_delete_ne by done; congruence.
Qed.

Lemma failure_first_request_is_kept_witness :
  let key := cache_key url_y [("a", VStr "1")] in
  let out := fetch_content url_y [("a", VStr "1")] None false false failed_before in
  f_first_request
    (mkFailure url_y [("a", VStr "1")] 1700000001
       ("An unexpected error occurred: Request was previously marked as bad: "
          +:+ key +:+ " received from " +:+ url_y) 40)
  = f_first_request
      (mkFailure url_y [("a", VStr "1")] 50
         "Request timed out for URL: https://example.test/y" 40).
Proof.
  apply (failure_first_request_is_kept url_y [("a", VStr "1")] None false false
           failed_before (cache_key url_y [("a", VStr "1")])).
  - vm_compute. reflexivity.
  - vm_compute. reflexivity.
Defined.

Lemma fetch_keeps_keyed url params session force ignore s :
  entries_keyed s ->
  entries_keyed (fetch_content url params session force ignore s).2.
Proof.
  intros [Hs Hb]. rewrite fetch_content_outcome. unfold entries_keyed.
  paths force ignore; project; (split; intros k x Hk); eauto.
  - destruct force; [done |]. cbn [negb] in Hhit.
    destruct (decide (k = cache_key url params)) as [->|Hne].
    + rewrite lookup_insert_eq in Hk. injection Hk as <-. exact (Hs _ _ Hhit).
    + rewrite lookup_insert_ne in Hk by done. by apply Hs.
  - destruct (decide (k = cache_key url params)) as [->|Hne].
    + rewrite lookup_insert_eq in Hk. by simplify_eq.
    + rewrite !lookup_insert_ne in Hk by done. by apply Hb.
  - destruct (decide (k = cache_key url params)) as [->|Hne].
    + rewrite lookup_insert_eq in Hk. by simplify_eq.
    + rewrite lookup_insert_ne in Hk by done. by apply Hs.
  - destruct (decide (k = cache_key url params)) as [->|Hne].
    + by rewrite lookup_delete_eq in Hk.
    + rewrite lookup_delete_ne in Hk by done. by apply Hb.
  - destruct (decide (k = cache_key url params)) as [->|Hne].
    + rewrite lookup_insert_eq in Hk. by simplify_eq.
    + rewrite lookup_insert_ne in Hk by done. by apply Hb.
  - destruct (decide (k = cache_key url params)) as [->|Hne].
    + rewrite lookup_insert_eq in Hk. by simplify_eq.
    + rewrite !lookup_insert_ne in Hk by done. by apply Hb.
Qed.

Lemma new_engine_tables clock network :
  successful_cache (new_engine clock network) = ∅ /\
  bad_request_cache (new_engine clock network) = ∅.
Proof. split; reflexivity. Qed.

(** X8: an engine that starts without a usable cache file keeps every entry
    under the key of the entry's own url and params, through any series of
    calls; and any call keeps it so. *)
Theorem entries_stay_keyed clock network calls :
  entries_keyed (run_calls calls (new_engine clock network)) /\
  (forall url params session force ignore s,
     entries_keyed s ->
     entries_keyed (fetch_content url params session force ignore s).2).
Proof.
  split; [|apply fetch_keeps_keyed].
  apply (run_calls_invariant entries_keyed).
  - intros c s'. unfold run_call. apply fetch_keeps_keyed.
  - destruct (new_engine_tables clock network) as [Hs Hb].
    split; intros k x Hk; [rewrite Hs in Hk | rewrite Hb in Hk];
      by rewrite lookup_empty in Hk.
Qed.

(** ** Timestamps *)

Lemma persist_clock s : clock (persist s) = clock s.
Proof. unfold persist. by destruct (disk_error s). Qed.

Lemma persist_ticks s : ticks (persist s) = ticks s.
Proof. unfold persist. by destruct (disk_error s). Qed.

Lemma record_failure_clock key url params msg s :
  clock (record_failure key url params msg s) = clock s.
Proof.
  unfold record_failure. destruct (bad_request_cache s !! key); by rewrite persist_clock.
Qed.

Lemma record_failure_ticks key url params msg s :
  (ticks s <= ticks (record_failure key url params msg s))%nat.
Proof.
  unfold record_failure. destruct (bad_request_cache s !! key);
    rewrite persist_ticks; cbn; lia.
Qed.

Lemma store_success_clock key url params data s :
  clock (store_success key url params data s) = clock s.
Proof. unfold store_success. by rewrite persist_clock. Qed.

Lemma store_success_ticks key url params data s :
  ticks (store_success key url params data s) = S (S (ticks s)).
Proof. unfold store_success. by rewrite persist_ticks. Qed.

Lemma clock_monotone_le s n m :
  clock_monotone s -> (n <= m)%nat -> clock s n <= clock s m.
Proof.
  intros Hmono Hle. induction Hle as [|m Hle IH]; [lia |].
  specialize (Hmono m). lia.
Qed.

(** Time passes, the success table stays: the entries are still ordered. *)
Lemma times_ordered_later s s' :
  clock s' = clock s -> (ticks s <= ticks s')%nat ->
  successful_cache s' = successful_cache s ->
  clock_monotone s -> success_times_ordered s -> success_times_ordered s'.
Proof.
  intros Hclock Hticks Htable Hmono Hord key entry Hentry.
  rewrite Htable in Hentry. destruct (Hord key entry Hentry) as [H1 H2].
  split; [done |]. rewrite Hclock.
  pose proof (clock_monotone_le s _ _ Hmono Hticks). lia.
Qed.

(** The success table gets an ordered entry whose [last_request] is a
    reading of the clock already taken. *)
Lemma times_ordered_insert key entry s s' :
  clock s' = clock s -> (ticks s <= ticks s')%nat ->
  successful_cache s' = <[key := entry]> (successful_cache s) ->
  s_first_request entry <= s_last_request entry ->
  s_last_request entry <= clock s (ticks s') ->
  clock_monotone s -> success_times_ordered s -> success_times_ordered s'.
Proof.
  intros Hclock Hticks Htable Hfirst Hlast Hmono Hord k e He.
  rewrite Htable in He. rewrite Hclock.
  destruct (decide (k = key)) as [->|Hne].
  - rewrite lookup_insert_eq in He. by simplify_eq.
  - rewrite lookup_insert_ne in He by done. destruct (Hord k e He) as [H1 H2].
    split; [done |]. pose proof (clock_monotone_le s _ _ Hmono Hticks). lia.
Qed.

Lemma fetch_clock url params session force ignore s :
  clock (fetch_content url params session force ignore s).2 = clock s.
Proof.
  rewrite fetch_content_outcome.
  paths force ignore; cbn [snd];
    rewrite ?record_failure_clock, ?store_success_clock; done.
Qed.

Lemma fetch_keeps_times_ordered url params session force ignore s :
  clock_monotone s -> success_times_ordered s ->
  success_times_ordered (fetch_content url params session force ignore s).2.
Proof.
  intros Hmono Hord. rewrite fetch_content_outcome.
  paths force ignore; cbn [snd].
  - destruct force; [done |]. cbn [negb] in Hhit. destruct (Hord _ _ Hhit) as [H1 H2].
    apply (times_ordered_insert (cache_key url params)
             (touch_success (clock s (ticks s)) entry) s); try done; cbn.
    + lia.
    + lia.
    + apply Hmono.
  - eapply times_ordered_later; [ | | | done | done].
    + by rewrite record_failure_clock.
    + etrans; [|apply record_failure_ticks]. cbn. lia.
    + by project.
  - apply (times_ordered_insert (cache_key url params)
             (mkSuccess url params (clock s (ticks s)) (clock s (S (ticks s))) data) s);
      try done.
    + by rewrite store_success_clock.
    + rewrite store_success_ticks. cbn. lia.
    + by project.
    + cbn. apply Hmono.
    + rewrite store_success_ticks. cbn. apply (clock_monotone_le s); [done | lia].
  - eapply times_ordered_later; [ | | | done | done]; by cbn.
  - eapply times_ordered_later; [ | | | done | done].
    + by rewrite record_failure_clock.
    + etrans; [|apply record_failure_ticks]. cbn. lia.
    + by project.
  - eapply times_ordered_later; [ | | | done | done]; by cbn.
  - eapply times_ordered_later; [ | | | done | done].
    + by rewrite !record_failure_clock.
    + etrans; [|apply record_failure_ticks]. etrans; [|apply record_failure_ticks].
      cbn. lia.
    + by project.
Qed.

(** X9: when the clock never goes back, [first_request] is not later than
    [last_request] in any success entry, after every call and every series
    of calls, provided it was so before and no [last_request] was ahead of
    the clock. *)
Theorem success_times_stay_ordered url params session force ignore s :
  clock_monotone s -> success_times_ordered s ->
  let out := fetch_content url params session force ignore s in
  success_times_ordered out.2 /\
  (forall key entry, successful_cache out.2 !! key = Some entry ->
     s_first_request entry <= s_last_request entry) /\
  (forall calls, success_times_ordered (run_calls calls s)).
Proof.
  intros Hmono Hord. cbv zeta.
  pose proof (fetch_keeps_times_ordered url params session force ignore s Hmono Hord) as H.
  split; [exact H |]. split; [intros key entry Hentry; by destruct (H key entry Hentry) |].
  intros calls.
  apply (run_calls_invariant (fun s => clock_monotone s /\ success_times_ordered s));
    [|done].
  intros c s' [Hm Ho]. unfold run_call. split.
  - intros n. rewrite fetch_clock. apply Hm.
  - by apply fetch_keeps_times_ordered.
Qed.

Lemma success_times_stay_ordered_witness :
  let out := fetch_content url_x [] None false false page_engine in
  success_times_ordered out.2 /\
  (forall key entry, successful_cache out.2 !! key = Some entry ->
     s_first_request entry <= s_last_request entry) /\
  (forall calls, success_times_ordered (run_calls calls page_engine)).
Proof.
  apply (success_times_stay_ordered url_x [] None false false page_engine).
  - intros n. change (ticking_clock n <= ticking_clock (S n)). unfold ticking_clock. lia.
  - intros key entry Hentry.
    destruct (new_engine_tables ticking_clock
                (always (inr (html_response "<html>ok</html>")))) as [Hs _].
    unfold page_engine in Hentry. rewrite Hs in Hentry. by rewrite lookup_empty in Hentry.
Defined.

(** ** Construction and restart *)

Lemma init_saved s successes failures :
  cache_file s = Saved successes failures ->
  successful_cache (__init__ s).2 = successes /\
  bad_request_cache (__init__ s).2 = failures.
Proof.
  intros H. unfold __init__, load_cache_from_file. run. cbn [cache_file set_bad_request_cache
    set_successful_cache]. by rewrite H.
Qed.




(** ** The request key is plain ASCII *)

Lemma all_chars_app P a b : Json.all_chars P (a +:+ b) = Json.all_chars P a && Json.all_chars P b.
Proof.
  induction a as [|c a IH]; [done |].
  rewrite JsonFacts.app_cons. cbn [Json.all_chars]. rewrite IH. by rewrite andb_assoc.
Qed.

Lemma all_chars_impl (P Q : ascii -> bool) s :
  (forall c, P c = true -> Q c = true) ->
  Json.all_chars P s = true -> Json.all_chars Q s = true.
Proof.
  intros HPQ. induction s as [|c s IH]; [done |]. cbn [Json.all_chars].
  intros [Hc Hs]%andb_prop. by rewrite (HPQ c Hc), IH.
Qed.

Lemma escape_char_printable c : Json.all_chars printable (Json.escape_char c) = true.
Proof. destruct c as [[] [] [] [] [] [] [] []]; reflexivity. Qed.

Lemma escape_printable s : Json.all_chars printable (Json.escape s) = true.
Proof.
  induction s as [|c s IH]; [done |]. cbn [Json.escape].
  by rewrite all_chars_app, escape_char_printable, IH.
Qed.

Lemma dumps_str_printable s : Json.all_chars printable (Json.dumps_str s) = true.
Proof.
  unfold Json.dumps_str. cbn [Json.all_chars].
  by rewrite all_chars_app, escape_printable.
Qed.

Lemma decimal_char_printable c : Json.decimal_char c = true -> printable c = true.
Proof. destruct c as [[] [] [] [] [] [] [] []]; done. Qed.

Lemma dumps_value_printable v : Json.all_chars printable (Json.dumps_value v) = true.
Proof.
  destruct v as [s|n]; cbn [Json.dumps_value]; [apply dumps_str_printable |].
  apply (all_chars_impl Json.decimal_char); [apply decimal_char_printable |].
  apply JsonFacts.all_chars_dumps_int.
Qed.

Lemma dumps_item_printable kv : Json.all_chars printable (Json.dumps_item kv) = true.
Proof.
  unfold Json.dumps_item.
  by rewrite !all_chars_app, dumps_str_printable, dumps_value_printable.
Qed.

Lemma join_items_printable l : Json.all_chars printable (Json.join_items l) = true.
Proof.
  induction l as [|kv l IH]; [done |]. rewrite JsonFacts.join_items_cons.
  rewrite all_chars_app, dumps_item_printable. destruct l; [done |].
  by rewrite all_chars_app, IH.
Qed.


(** ** The content-type test *)

Lemma lower_app a b : lower (a +:+ b) = lower a +:+ lower b.
Proof.
  induction a as [|c a IH]; [done |].
  rewrite JsonFacts.app_cons. cbn [lower]. by rewrite IH.
Qed.

Lemma prefix_app needle rest : String.prefix needle (needle +:+ rest) = true.
Proof.
  induction needle as [|c needle IH]; [by destruct rest |].
  rewrite JsonFacts.app_cons. cbn [String.prefix].
  destruct (ascii_dec c c); [exact IH | done].
Qed.

Lemma contains_app needle before after :
  contains needle (before +:+ needle +:+ after) = true.
Proof.
  induction before as [|c before IH].
  - rewrite JsonFacts.app_nil_l.
    destruct needle as [|c needle]; [by destruct after |].
    rewrite JsonFacts.app_cons. cbn [contains].
    rewrite <- JsonFacts.app_cons. by rewrite prefix_app.
  - rewrite JsonFacts.app_cons. cbn [contains]. rewrite IH. apply orb_true_r.
Qed.

(** X13: the kind of a response is recognised in any letter case and with
    anything before and after it in the [Content-Type] header: if a part of
    the header lower-cases to the kind, the test for the kind succeeds. *)
Theorem kind_test_ignores_case_and_context kind before part after :
  lower part = kind ->
  contains kind (lower (before +:+ part +:+ after)) = true.
Proof.
  intros <-. rewrite !lower_app. apply contains_app.
Qed.

Lemma kind_test_ignores_case_and_context_witness :
  contains "text/html" (lower ("" +:+ "Text/HTML" +:+ "; charset=UTF-8")) = true.
Proof.
  apply (kind_test_ignores_case_and_context "text/html" "" "Text/HTML" "; charset=UTF-8").
  reflexivity.
Defined.

(** ** [fetch_movies_for_year] *)

Lemma outcome_hit url params ignore s entry :
  successful_cache s !! cache_key url params = Some entry ->
  sent (outcome url params false ignore s).2 = sent s /\
  exists answer, (outcome url params false ignore s).1 = Ret answer.
Proof. intros H. unfold outcome. cbn [negb]. rewrite H. eauto. Qed.

Lemma outcome_previously_failed url params s failure :
  successful_cache s !! cache_key url params = None ->
  bad_request_cache s !! cache_key url params = Some failure ->
  sent (outcome url params false false s).2 = sent s /\
  exists e, (outcome url params false false s).1 = Raise e.
Proof.
  intros Hs Hb. unfold outcome, fault. cbn [negb]. rewrite Hs, Hb. project. eauto.
Qed.

(** A call that neither forces a refresh nor suppresses failure recording
    ends with a success entry under its key, or raises and ends with a
    failure entry and no success entry under its key. *)
Lemma plain_fetch_ends url params s :
  let out := outcome url params false false s in
  (exists answer entry,
     out.1 = Ret answer /\ successful_cache out.2 !! cache_key url params = Some entry) \/
  (exists e failure,
     out.1 = Raise e /\ successful_cache out.2 !! cache_key url params = None /\
     bad_request_cache out.2 !! cache_key url params = Some failure).
Proof.
  cbv zeta. unfold outcome, fault. cbn [negb].
  destruct (successful_cache s !! cache_key url params) as [entry|] eqn:Hs.
  { left. project. rewrite lookup_insert_eq. eauto. }
  destruct (bad_request_cache s !! cache_key url params) as [failure|] eqn:Hb.
  { right. project. rewrite lookup_insert_eq. eauto 10. }
  destruct (verdict url _).
  - left. project. rewrite lookup_insert_eq. eauto.
  - right. project. rewrite lookup_insert_eq. eauto 10.
  - right. project. rewrite lookup_insert_eq. eauto 10.
Qed.


(** ** Failures and the success table *)



(** ** Failing writes *)

